(** * Function-name resolution (pkg/sql/parser/function_name.go)

    A shallow embedding of the function-name resolver of the SQL parser:
    the normalisation of an [UnresolvedName] into a [functionName], the
    lookup of a builtin in [funDefs] with its fast path and its search
    path, and the mutable reference cell [ResolvableFunctionReference]
    that remembers the first successful resolution. *)

From Stdlib Require Import Ascii String.
From stdpp Require Import base strings list gmap.

Local Open Scope string_scope.

(** ** Data model *)

(** [type Name string]. *)
Definition Name : Type := string.

(** [type SearchPath []string]. *)
Abbreviation SearchPath := (list string).

(** The Unicode side of [strings.ToLower].  On a string with a byte of 128
    or more the library decodes the string as UTF-8 and maps every rune
    through the case tables of package [unicode]; the tables are data of the
    Go library and are taken as given: [unicodeToLower s] is the result on
    such a string [s].  Every rune is mapped to a rune and none is dropped,
    so a non-empty string stays non-empty. *)
Class UnicodeLower : Type := {
  unicodeToLower : string -> string;
  unicodeToLower_nonempty : forall s, s <> "" -> unicodeToLower s <> ""
}.

(** The process-wide registry [funDefs] is written by [setupBuiltins],
    outside this file; the types [Builtin] and [ArraySubscript] are declared
    elsewhere in the package and are never inspected here.  All three are
    parameters of the development, as are the case tables. *)
Section Parser.

Variable ArraySubscript : Type.
Variable Builtin : Type.
Context {caseTables : UnicodeLower}.

(** Modelled from the spec: the declaration of [NamePart] is outside this
    file; an unresolved name is an "ordered sequence of name parts, each
    either a plain identifier or an array-subscript marker".  [NPName] is a
    part of dynamic type [Name], [NPArraySubscript] one of dynamic type
    [*ArraySubscript]. *)
Inductive NamePart : Type :=
  | NPName (s : Name)
  | NPArraySubscript (a : ArraySubscript).

(** [type UnresolvedName NameParts], [type NameParts []NamePart]. *)
Definition NameParts : Type := list NamePart.
Definition UnresolvedName : Type := NameParts.

(** The two fields of [TableName] that this file reads. *)
Record TableName : Type := mkTableName {
  DatabaseName : Name;
  TableName_ : Name
}.

(** [functionName]: the structured name between an [UnresolvedName] and a
    [FunctionDefinition]. *)
Record functionName : Type := mkFunctionName {
  prefixName : Name;
  functionName_ : Name;
  selector : NameParts
}.

(** [FunctionDefinition]; the registry holds pointers to these, which are
    never written after start-up and are modelled by their value. *)
Record FunctionDefinition : Type := mkFunctionDefinition {
  FDName : string;
  FDDefinition : list Builtin
}.


(** An error value built by [fmt.Errorf(format, n)]: the format string and
    the name it is applied to.  The rendering of [n] by [%s] belongs to the
    formatter of [UnresolvedName], outside this file, so the two are kept
    apart. *)
Record error : Type := Errorf {
  errFormat : string;
  errArg : UnresolvedName
}.

(** A Go result pair [(v, err)] with exactly one side set. *)
Inductive Result (A : Type) : Type :=
  | Ok (a : A)
  | Err (e : error).

(** What a call does: it returns, or it panics with a message. *)
Inductive Outcome (A : Type) : Type :=
  | Returns (a : A)
  | Panics (msg : string).

Arguments Ok {A} a.
Arguments Err {A} e.
Arguments Returns {A} a.
Arguments Panics {A} msg.

(** The interface [FunctionReference]: its dynamic type is
    [*FunctionDefinition] or [UnresolvedName] (the only two types with the
    unexported method [functionReference]), or the interface is nil. *)
Inductive FunctionReference : Type :=
  | FRFunctionDefinition (fd : FunctionDefinition)
  | FRUnresolvedName (n : UnresolvedName)
  | FRNil.

(** [ResolvableFunctionReference]: the editable cell of a [FuncExpr]. *)
Record ResolvableFunctionReference : Type := mkRef {
  FunctionReference_ : FunctionReference
}.

(** ** strings.ToLower

    A Go string is its sequence of bytes.  On a string of ASCII bytes only
    (every byte below 128) the result has each byte ['A'..'Z'] moved to
    ['a'..'z'] and every other byte kept; on any other string the result is
    the one of the Unicode case tables, [unicodeToLower]. *)

(** [c >= utf8.RuneSelf] for no byte [c] of [s]. *)
Definition isASCII (s : string) : bool :=
  forallb (fun c => (nat_of_ascii c <? 128)%nat) (list_ascii_of_string s).

(** ['A' <= c && c <= 'Z'] gives [c + ('a' - 'A')]. *)
Definition toLowerByte (c : ascii) : ascii :=
  let k := nat_of_ascii c in
  if (65 <=? k)%nat && (k <=? 90)%nat then ascii_of_nat (k + 32) else c.

Fixpoint toLowerASCII (s : string) : string :=
  match s with
  | EmptyString => EmptyString
  | String c s' => String (toLowerByte c) (toLowerASCII s')
  end.

Definition ToLower (s : string) : string :=
  if isASCII s then toLowerASCII s else unicodeToLower s.

(** The lowercase form of an ASCII string spelled out letter by letter,
    as a reference for [ToLower]. *)
Definition lowerLetter (c : ascii) : ascii :=
  match c with
  | "A" => "a" | "B" => "b" | "C" => "c" | "D" => "d" | "E" => "e"
  | "F" => "f" | "G" => "g" | "H" => "h" | "I" => "i" | "J" => "j"
  | "K" => "k" | "L" => "l" | "M" => "m" | "N" => "n" | "O" => "o"
  | "P" => "p" | "Q" => "q" | "R" => "r" | "S" => "s" | "T" => "t"
  | "U" => "u" | "V" => "v" | "W" => "w" | "X" => "x" | "Y" => "y"
  | "Z" => "z" | _ => c
  end%char.

Fixpoint lowercaseLetters (s : string) : string :=
  match s with
  | EmptyString => EmptyString
  | String c s' => String (lowerLetter c) (lowercaseLetters s')
  end.

(** ** Name normalisation *)

(** Modelled from the spec: [normalizeTableNameAsValue] is defined outside
    this file.  The parts "are validated using the same structural rules as
    a table reference (optional one-level qualifier + bare name)": one plain
    identifier, or a plain qualifier followed by a plain identifier.  Its
    error is overridden by the only caller in this file, so a failure is
    [None]. *)
Definition normalizeTableNameAsValue (n : UnresolvedName) : option TableName :=
  match n with
  | [NPName t] => Some (mkTableName "" t)
  | [NPName db; NPName t] => Some (mkTableName db t)
  | _ => None
  end.

(** The type assertion of a part to a pointer to [ArraySubscript]. *)
Definition isArraySubscript (p : NamePart) : bool :=
  match p with
  | NPArraySubscript _ => true
  | NPName _ => false
  end.

(** The loop of [normalizeFunctionName]: [i] starts at [len(n)]; at the
    first part (position [j]) that is an array subscript, [i = j] and the
    loop breaks. *)
Fixpoint firstArraySubscript (j : nat) (ps : NameParts) (i : nat) : nat :=
  match ps with
  | [] => i
  | p :: ps' =>
      if isArraySubscript p then j else firstArraySubscript (S j) ps' i
  end.

Definition normalizeFunctionName (n : UnresolvedName) : Result functionName :=
  if (length n =? 0)%nat then
    Err (Errorf "invalid function name: %s" n)
  else
    let i := firstArraySubscript 0 n (length n) in
    if (i =? 0)%nat then
      Err (Errorf "invalid function name: %s" n)
    else
      match normalizeTableNameAsValue (take i n) with
      | None => Err (Errorf "invalid function name: %s" n)
      | Some tn =>
          Ok {| prefixName := DatabaseName tn;
                  functionName_ := TableName_ tn;
                  selector := drop i n |}
      end.

(** [fn.function()] and [fn.prefix()]. *)
Definition function (fn : functionName) : string := functionName_ fn.
Definition prefix (fn : functionName) : string := prefixName fn.

(** ** Resolution *)

Variable funDefs : gmap string FunctionDefinition.

(** The loop over the search path: the first [alt] with
    [funDefs[alt + "." + smallName]] present wins. *)
Fixpoint searchPathLoop (smallName : string) (searchPath : SearchPath)
  : option FunctionDefinition :=
  match searchPath with
  | [] => None
  | alt :: rest =>
      match funDefs !! (alt +:+ "." +:+ smallName) with
      | Some def => Some def
      | None => searchPathLoop smallName rest
      end
  end.

Definition ResolveFunction (n : UnresolvedName) (searchPath : SearchPath)
  : Result FunctionDefinition :=
  match normalizeFunctionName n with
  | Err e => Err e
  | Ok fn =>
      if (0 <? length (selector fn))%nat then
        Err (Errorf "invalid function name: %s" n)
      else
        match funDefs !! function fn, String.eqb (prefix fn) "" with
        | Some d, true => Ok d
        | _, _ =>
            let prefix := ToLower (prefix fn) in
            let smallName := ToLower (function fn) in
            let fullName :=
              if negb (String.eqb prefix "")
              then prefix +:+ "." +:+ smallName
              else smallName in
            match funDefs !! fullName with
            | Some def => Ok def
            | None =>
                let found :=
                  if String.eqb prefix ""
                  then searchPathLoop smallName searchPath
                  else None in
                match found with
                | Some def => Ok def
                | None => Err (Errorf "unknown function: %s()" n)
                end
            end
        end
  end.

(** [Resolve]: the result of the call and the cell after it. *)
Definition Resolve (fn : ResolvableFunctionReference) (searchPath : SearchPath)
  : Outcome (Result FunctionDefinition) * ResolvableFunctionReference :=
  match FunctionReference_ fn with
  | FRFunctionDefinition t => (Returns (Ok t), fn)
  | FRUnresolvedName t =>
      match ResolveFunction t searchPath with
      | Err err => (Returns (Err err), fn)
      | Ok fd => (Returns (Ok fd), mkRef (FRFunctionDefinition fd))
      end
  | FRNil => (Panics "unsupported function name: <nil> (<nil>)", fn)
  end.

(** [wrapFunction]: a cell holding the pre-resolved function named [n]. *)
Definition wrapFunction (n : string) : Outcome ResolvableFunctionReference :=
  match funDefs !! n with
  | None => Panics ("function " +:+ n +:+ "() not defined")
  | Some fd => Returns (mkRef (FRFunctionDefinition fd))
  end.

(** A run of [Resolve] calls on one cell, one search path per call: the
    results in order and the cell at the end. *)
Fixpoint ResolveMany (fn : ResolvableFunctionReference)
  (searchPaths : list SearchPath)
  : list (Outcome (Result FunctionDefinition)) * ResolvableFunctionReference :=
  match searchPaths with
  | [] => ([], fn)
  | sp :: rest =>
      let '(r, fn') := Resolve fn sp in
      let '(rs, fn'') := ResolveMany fn' rest in
      (r :: rs, fn'')
  end.

End Parser.

Arguments NPName {ArraySubscript} s.
Arguments NPArraySubscript {ArraySubscript} a.
Arguments mkFunctionName {ArraySubscript} prefixName functionName_ selector.
Arguments prefixName {ArraySubscript} f.
Arguments functionName_ {ArraySubscript} f.
Arguments selector {ArraySubscript} f.
Arguments mkFunctionDefinition {Builtin} FDName FDDefinition.
Arguments FDName {Builtin} f.
Arguments FDDefinition {Builtin} f.
Arguments Errorf {ArraySubscript} errFormat errArg.
Arguments errFormat {ArraySubscript} e.
Arguments errArg {ArraySubscript} e.
Arguments Ok {ArraySubscript A} a.
Arguments Err {ArraySubscript A} e.
Arguments Returns {A} a.
Arguments Panics {A} msg.
Arguments FRFunctionDefinition {ArraySubscript Builtin} fd.
Arguments FRUnresolvedName {ArraySubscript Builtin} n.
Arguments FRNil {ArraySubscript Builtin}.
Arguments mkRef {ArraySubscript Builtin} FunctionReference_.
Arguments FunctionReference_ {ArraySubscript Builtin} r.
Arguments normalizeTableNameAsValue {ArraySubscript} n.
Arguments isArraySubscript {ArraySubscript} p.
Arguments firstArraySubscript {ArraySubscript} j ps i.
Arguments normalizeFunctionName {ArraySubscript} n.
Arguments function {ArraySubscript} fn.
Arguments prefix {ArraySubscript} fn.
Arguments searchPathLoop {Builtin} funDefs smallName searchPath.
Arguments ResolveFunction {ArraySubscript Builtin caseTables}
  funDefs n searchPath.
Arguments Resolve {ArraySubscript Builtin caseTables} funDefs fn searchPath.
Arguments wrapFunction {ArraySubscript Builtin} funDefs n.
Arguments ResolveMany {ArraySubscript Builtin caseTables}
  funDefs fn searchPaths.

(** ** Formatting

    [FmtFlags] and the formatter of [UnresolvedName] are declared elsewhere
    in the package; they are parameters.  A [bytes.Buffer] is the string
    written so far, and [WriteString] appends to it. *)
Section Formatting.

Context {ArraySubscript Builtin : Type}.
Variable FmtFlags : Type.
Variable UnresolvedName_Format :
  UnresolvedName ArraySubscript -> string -> FmtFlags -> string.

(** [Format] of a pointer to [FunctionDefinition]:
    [buf.WriteString(fd.Name)]. *)
Definition FunctionDefinition_Format (fd : FunctionDefinition Builtin)
  (buf : string) (f : FmtFlags) : string :=
  buf +:+ FDName fd.

(** [ResolvableFunctionReference.Format]: the call goes to the value held
    by the interface; on a nil interface it is a nil dereference. *)
Definition Format (fn : ResolvableFunctionReference ArraySubscript Builtin)
  (buf : string) (f : FmtFlags) : Outcome string :=
  match FunctionReference_ fn with
  | FRFunctionDefinition fd => Returns (FunctionDefinition_Format fd buf f)
  | FRUnresolvedName n => Returns (UnresolvedName_Format n buf f)
  | FRNil =>
      Panics "runtime error: invalid memory address or nil pointer dereference"
  end.

End Formatting.

Arguments FunctionDefinition_Format {Builtin FmtFlags} fd buf f.
Arguments Format {ArraySubscript Builtin FmtFlags} UnresolvedName_Format fn buf f.

(** ** A small registry for the examples

    Four builtins as [setupBuiltins] would register them: [lower] and
    [count] under their bare names, [now] under [pg_catalog] only, and
    [crdb_internal.now] to tell the order of the search path. *)
Definition sampleDef (name : string) : FunctionDefinition unit :=
  mkFunctionDefinition name [tt].

Definition sampleDefs : gmap string (FunctionDefinition unit) :=
  <["lower" := sampleDef "lower"]>
  (<["count" := sampleDef "count"]>
  (<["pg_catalog.now" := sampleDef "pg_catalog.now"]>
  (<["crdb_internal.now" := sampleDef "crdb_internal.now"]> ∅))).

(** Case tables for the examples: the capital letters of Latin-1, U+00C0
    to U+00DE without the multiplication sign U+00D7, encoded in UTF-8 as
    the byte 195 and a byte from 128 to 158, go to their small letters, 32
    further; ASCII letters go to lowercase; every other byte is kept. *)
Fixpoint latin1ToLower (afterC3 : bool) (s : string) : string :=
  match s with
  | EmptyString => EmptyString
  | String c s' =>
      let k := nat_of_ascii c in
      let c' :=
        if afterC3 && (128 <=? k)%nat && (k <=? 158)%nat && negb (k =? 151)%nat
        then ascii_of_nat (k + 32)
        else toLowerByte c in
      String c' (latin1ToLower (k =? 195)%nat s')
  end.

Lemma latin1ToLower_nonempty (s : string) :
  s <> "" -> latin1ToLower false s <> "".
Proof. destruct s; [done | discriminate]. Qed.

#[local] Instance sampleCaseTables : UnicodeLower := {|
  unicodeToLower := latin1ToLower false;
  unicodeToLower_nonempty := latin1ToLower_nonempty
|}.

(** A registry with a key outside ASCII. *)
Definition sampleDefsLatin1 : gmap string (FunctionDefinition unit) :=
  <["é.x" := sampleDef "é.x"]> ∅.

Definition nm (s : string) : NamePart unit := NPName s.
Definition sub : NamePart unit := NPArraySubscript tt.

(** * Properties *)

Section Properties.

Context {ArraySubscript Builtin : Type} {caseTables : UnicodeLower}.
Variable funDefs : gmap string (FunctionDefinition Builtin).

Implicit Types (n : UnresolvedName ArraySubscript).
Implicit Types (fn : functionName ArraySubscript).
Implicit Types (d fd : FunctionDefinition Builtin).
Implicit Types (sp searchPath : SearchPath).
Implicit Types (cell : ResolvableFunctionReference ArraySubscript Builtin).

(** ** Helper lemmas *)

Lemma ToLower_empty (s : string) : ToLower s = "" <-> s = "".
Proof.
  split; [| by intros ->].
  destruct s as [|c s]; [done |]. unfold ToLower.
  destruct (isASCII (String c s)); [discriminate |].
  intros Hempty. by destruct (unicodeToLower_nonempty (String c s)).
Qed.

Lemma eqb_empty_ToLower (s : string) :
  String.eqb (ToLower s) "" = String.eqb s "".
Proof.
  destruct (String.eqb_spec s "") as [-> | Hs]; [reflexivity |].
  apply String.eqb_neq. by rewrite ToLower_empty.
Qed.

Lemma toLowerByte_lowerLetter (c : ascii) : toLowerByte c = lowerLetter c.
Proof. by destruct c as [[] [] [] [] [] [] [] []]. Qed.

(** On an ASCII string [ToLower] is the letter-by-letter lowercase. *)
Lemma ToLower_ASCII (s : string) :
  isASCII s = true -> ToLower s = lowercaseLetters s.
Proof.
  unfold ToLower. intros ->.
  induction s as [|c s IH]; [reflexivity |].
  cbn [toLowerASCII lowercaseLetters].
  by rewrite IH, toLowerByte_lowerLetter.
Qed.

Lemma firstArraySubscript_plain (ps : NameParts ArraySubscript) (j i : nat) :
  Forall (fun p => isArraySubscript p = false) ps ->
  firstArraySubscript j ps i = i.
Proof.
  intros Hplain. revert j.
  induction Hplain as [|p ps Hp _ IH]; intros j; simpl.
  - reflexivity.
  - rewrite Hp. apply IH.
Qed.

Lemma searchPathLoop_miss (smallName : string) sp :
  (forall alt, alt ∈ sp -> funDefs !! (alt +:+ "." +:+ smallName) = None) ->
  searchPathLoop funDefs smallName sp = None.
Proof.
  induction sp as [|alt rest IH]; intros Hmiss; simpl.
  - reflexivity.
  - rewrite (Hmiss alt) by apply list_elem_of_here.
    apply IH. intros a Ha. apply Hmiss. by apply list_elem_of_further.
Qed.

Lemma searchPathLoop_first (smallName : string) (before after : SearchPath)
  (alt : string) d :
  (forall a, a ∈ before -> funDefs !! (a +:+ "." +:+ smallName) = None) ->
  funDefs !! (alt +:+ "." +:+ smallName) = Some d ->
  searchPathLoop funDefs smallName (before ++ alt :: after) = Some d.
Proof.
  intros Hmiss Hhit.
  induction before as [|a before IH]; simpl.
  - by rewrite Hhit.
  - rewrite (Hmiss a) by apply list_elem_of_here.
    apply IH. intros a' Ha'. apply Hmiss. by apply list_elem_of_further.
Qed.

(** What [ResolveFunction] does once the name is normalised and has no
    selector, when the fast path does not apply. *)
Lemma ResolveFunction_slow_path n fn sp :
  normalizeFunctionName n = Ok fn ->
  selector fn = [] ->
  funDefs !! function fn = None \/ prefix fn <> "" ->
  ResolveFunction funDefs n sp =
    let fullName :=
      if String.eqb (prefix fn) "" then ToLower (function fn)
      else ToLower (prefix fn) +:+ "." +:+ ToLower (function fn) in
    match funDefs !! fullName with
    | Some def => Ok def
    | None =>
        match (if String.eqb (prefix fn) ""
               then searchPathLoop funDefs (ToLower (function fn)) sp
               else None) with
        | Some def => Ok def
        | None => Err (Errorf "unknown function: %s()" n)
        end
    end.
Proof.
  intros Hn Hsel Hfast. unfold ResolveFunction. rewrite Hn, Hsel. simpl.
  rewrite eqb_empty_ToLower.
  destruct Hfast as [Hnone | Hpre].
  - rewrite Hnone. by destruct (String.eqb (prefix fn) "").
  - apply String.eqb_neq in Hpre. rewrite Hpre. simpl.
    by destruct (funDefs !! function fn).
Qed.

(** ** The normaliser *)

(** C9. [normalizeFunctionName] fails with the invalid-name error on the
    empty sequence, and on every sequence whose first part is an array
    subscript. *)
Theorem normalizeFunctionName_rejects_empty_and_leading_subscript :
  normalizeFunctionName (@nil (NamePart ArraySubscript))
    = Err (Errorf "invalid function name: %s" []) /\
  (forall (a : ArraySubscript) (rest : NameParts ArraySubscript),
      normalizeFunctionName (NPArraySubscript a :: rest)
        = Err (Errorf "invalid function name: %s"
                 (NPArraySubscript a :: rest))).
Proof. split; reflexivity. Qed.

(** C3 (as amended). A non-empty sequence of plain identifiers, with no
    array subscript, normalises with an empty selector when it has one or
    two parts (a bare name, or a qualifier and a bare name); with three
    parts or more it fails with the invalid-name error. *)
Theorem normalizeFunctionName_plain_parts n :
  n <> [] ->
  Forall (fun p => isArraySubscript p = false) n ->
  (length n <= 2 ->
     exists fn, normalizeFunctionName n = Ok fn /\ selector fn = []) /\
  (2 < length n ->
     normalizeFunctionName n = Err (Errorf "invalid function name: %s" n)).
Proof.
  intros Hne Hplain. unfold normalizeFunctionName.
  rewrite (firstArraySubscript_plain _ _ _ Hplain).
  rewrite take_ge, drop_ge by reflexivity.
  destruct n as [|p1 [|p2 [|p3 rest]]]; [done | | |].
  - apply Forall_cons in Hplain as [H1 _].
    destruct p1; [| discriminate]. cbn. split; [eauto | lia].
  - apply Forall_cons in Hplain as [H1 Hplain].
    apply Forall_cons in Hplain as [H2 _].
    destruct p1; [| discriminate]. destruct p2; [| discriminate].
    cbn. split; [eauto | lia].
  - split; [cbn; lia |]. intros _. cbn.
    destruct p1; [| reflexivity]. destruct p2; reflexivity.
Qed.

(** ** The resolver *)

(** C2 (as amended). A name whose normalised selector is not empty is
    rejected with the error text of an invalid name, the same text that
    [normalizeFunctionName] itself fails with, and not with the error of an
    unknown function; this holds for every registry and search path, hence
    also when the prefix and name alone would resolve. *)
Theorem ResolveFunction_rejects_selector n fn sp :
  normalizeFunctionName n = Ok fn ->
  selector fn <> [] ->
  ResolveFunction funDefs n sp
    = Err (Errorf "invalid function name: %s" n) /\
  Errorf "invalid function name: %s" n
    <> Errorf "unknown function: %s()" n.
Proof.
  intros Hn Hsel. split; [| intros [=]].
  unfold ResolveFunction. rewrite Hn.
  destruct (selector fn); [done | reflexivity].
Qed.

(** C6. An unqualified name (empty prefix, empty selector) whose text as
    written is a key of the registry resolves to that entry, under every
    search path: the key is the text itself, not its lowercase form. *)
Theorem ResolveFunction_fast_path n fn d sp :
  normalizeFunctionName n = Ok fn ->
  selector fn = [] ->
  prefix fn = "" ->
  funDefs !! function fn = Some d ->
  ResolveFunction funDefs n sp = Ok d.
Proof.
  intros Hn Hsel Hpre Hkey. unfold ResolveFunction.
  by rewrite Hn, Hsel, Hkey, Hpre.
Qed.

(** C7. When the fast path misses (the text as written is no key, or the
    name is qualified), the candidate is the lowercase prefix, a dot and the
    lowercase name when the prefix is not empty, and the lowercase name
    alone otherwise; a registry entry under the candidate is returned, under
    every search path.  The lowercase form is the one of [strings.ToLower]:
    for a prefix or a name of ASCII bytes, the text with each letter [A] to
    [Z] replaced by its small letter. *)
Theorem ResolveFunction_lowercase_candidate n fn d sp :
  normalizeFunctionName n = Ok fn ->
  selector fn = [] ->
  funDefs !! function fn = None \/ prefix fn <> "" ->
  funDefs !! (if String.eqb (prefix fn) ""
              then ToLower (function fn)
              else ToLower (prefix fn) +:+ "." +:+ ToLower (function fn))
    = Some d ->
  ResolveFunction funDefs n sp = Ok d /\
  (isASCII (prefix fn) = true ->
     ToLower (prefix fn) = lowercaseLetters (prefix fn)) /\
  (isASCII (function fn) = true ->
     ToLower (function fn) = lowercaseLetters (function fn)).
Proof.
  intros Hn Hsel Hfast Hkey.
  split; [| split; apply ToLower_ASCII].
  rewrite (ResolveFunction_slow_path _ _ _ Hn Hsel Hfast). cbn zeta.
  by rewrite Hkey.
Qed.

(** C5. For a normalised name without selector:
    - unqualified and found neither by the fast path nor under its
      lowercase form: the search path is tried in list order with the key
      [entry + "." + lowercase name], and the first entry that hits gives
      the result, whatever follows it; if no entry hits, the result is the
      unknown-function error on the raw name;
    - qualified: the result is the same under every search path, and it is
      the unknown-function error on the raw name when the qualified
      candidate is not registered;
    - the lowercase form is the one of [strings.ToLower]: for a prefix or a
      name of ASCII bytes, the text with each letter [A] to [Z] replaced by
      its small letter. *)
Theorem ResolveFunction_search_path n fn :
  normalizeFunctionName n = Ok fn ->
  selector fn = [] ->
  (prefix fn = "" ->
   funDefs !! function fn = None ->
   funDefs !! ToLower (function fn) = None ->
   (forall (before after : SearchPath) (alt : string) d,
       (forall a, a ∈ before ->
          funDefs !! (a +:+ "." +:+ ToLower (function fn)) = None) ->
       funDefs !! (alt +:+ "." +:+ ToLower (function fn)) = Some d ->
       ResolveFunction funDefs n (before ++ alt :: after) = Ok d) /\
   (forall sp : SearchPath,
       (forall a, a ∈ sp ->
          funDefs !! (a +:+ "." +:+ ToLower (function fn)) = None) ->
       ResolveFunction funDefs n sp
         = Err (Errorf "unknown function: %s()" n))) /\
  (prefix fn <> "" ->
   (forall sp sp' : SearchPath,
       ResolveFunction funDefs n sp = ResolveFunction funDefs n sp') /\
   (funDefs !! (ToLower (prefix fn) +:+ "." +:+ ToLower (function fn))
      = None ->
    forall sp : SearchPath,
      ResolveFunction funDefs n sp
        = Err (Errorf "unknown function: %s()" n))) /\
  (isASCII (prefix fn) = true ->
     ToLower (prefix fn) = lowercaseLetters (prefix fn)) /\
  (isASCII (function fn) = true ->
     ToLower (function fn) = lowercaseLetters (function fn)).
Proof.
  intros Hn Hsel. split; [| split; [| split; apply ToLower_ASCII]].
  - intros Hpre Hfast Hlow.
    assert (Hslow := fun sp =>
      ResolveFunction_slow_path n fn sp Hn Hsel (or_introl Hfast)).
    rewrite Hpre in Hslow. cbn [String.eqb] in Hslow. cbn zeta in Hslow.
    rewrite Hlow in Hslow.
    split.
    + intros before after alt d Hmiss Hhit. rewrite Hslow.
      by rewrite (searchPathLoop_first _ _ _ _ _ Hmiss Hhit).
    + intros sp Hmiss. rewrite Hslow.
      by rewrite (searchPathLoop_miss _ _ Hmiss).
  - intros Hpre.
    assert (Hslow := fun sp =>
      ResolveFunction_slow_path n fn sp Hn Hsel (or_intror Hpre)).
    apply String.eqb_neq in Hpre. rewrite Hpre in Hslow. cbn zeta in Hslow.
    split.
    + intros sp sp'. by rewrite !Hslow.
    + intros Hnone sp. by rewrite Hslow, Hnone.
Qed.

(** ** The reference cell *)

(** C1. Once a [Resolve] call on a cell has succeeded with definition [d]
    (under some search path [P1]), the cell holds [d], and every later
    [Resolve] call on it, under any search path [P2], returns [d] and leaves
    the cell as it is; so does every run of later calls. *)
Theorem Resolve_caches_first_success cell cell' (P1 : SearchPath) d :
  Resolve funDefs cell P1 = (Returns (Ok d), cell') ->
  FunctionReference_ cell' = FRFunctionDefinition d /\
  (forall P2 : SearchPath,
      Resolve funDefs cell' P2 = (Returns (Ok d), cell')) /\
  (forall Ps : list SearchPath,
      ResolveMany funDefs cell' Ps =
        (map (fun _ => Returns (Ok d)) Ps, cell')).
Proof.
  intros Hfirst.
  assert (Hcell : cell' = mkRef (FRFunctionDefinition d)).
  { unfold Resolve in Hfirst. destruct cell as [[t | t |]]; simpl in Hfirst.
    - by inversion Hfirst.
    - destruct (ResolveFunction funDefs t P1); by inversion Hfirst.
    - discriminate. }
  subst cell'. split; [reflexivity |].
  split; [reflexivity |].
  induction Ps as [|P Ps IH]; [reflexivity |].
  cbn [ResolveMany map]. unfold Resolve at 1. cbn [FunctionReference_].
  by rewrite IH.
Qed.

(** C8. When the resolver fails on an unresolved cell, [Resolve] returns
    that very error and the cell still holds the same unresolved name; a
    later call under a search path for which the resolver succeeds then
    returns the definition and fills the cell. *)
Theorem Resolve_failure_leaves_cell n sp (e : error ArraySubscript) :
  ResolveFunction funDefs n sp = Err e ->
  Resolve funDefs (mkRef (FRUnresolvedName n)) sp
    = (Returns (Err e), mkRef (FRUnresolvedName n)) /\
  (forall (sp' : SearchPath) d,
      ResolveFunction funDefs n sp' = Ok d ->
      ResolveMany funDefs (mkRef (FRUnresolvedName n)) [sp; sp']
        = ([Returns (Err e); Returns (Ok d)],
           mkRef (FRFunctionDefinition d))).
Proof.
  intros Hfail.
  assert (Hstep : Resolve funDefs (mkRef (FRUnresolvedName n)) sp
                  = (Returns (Err e), mkRef (FRUnresolvedName n))).
  { unfold Resolve. cbn [FunctionReference_]. by rewrite Hfail. }
  split; [exact Hstep |].
  intros sp' d Hok. cbn [ResolveMany]. rewrite Hstep.
  unfold Resolve. cbn [FunctionReference_]. by rewrite Hok.
Qed.

(** C10. [wrapFunction n] panics, with the message that [n] is not
    defined, when [n] is not a key of the registry; when [n] is a key it
    returns, and the cell it returns holds exactly the registry's definition
    for [n]. *)
Theorem wrapFunction_panics_iff_unregistered (name : string) :
  (funDefs !! name = None ->
     wrapFunction (ArraySubscript := ArraySubscript) funDefs name
       = Panics ("function " +:+ name +:+ "() not defined")) /\
  (forall fd, funDefs !! name = Some fd ->
     wrapFunction (ArraySubscript := ArraySubscript) funDefs name
       = Returns (mkRef (FRFunctionDefinition fd))).
Proof.
  unfold wrapFunction. split.
  - by intros ->.
  - by intros fd ->.
Qed.

(** C4 (as amended). [wrapFunction] takes a name, not a definition, and
    reads the registry at exactly that key, with no normalisation and no
    search path.  For a registered name the cell it returns is already
    resolved, and [Resolve] on that cell returns the definition and keeps the
    cell, whatever the search path and whatever the registry. *)
Theorem wrapFunction_cell_is_resolved (name : string) fd :
  funDefs !! name = Some fd ->
  exists cell,
    wrapFunction funDefs name = Returns cell /\
    FunctionReference_ cell = FRFunctionDefinition fd /\
    forall (funDefs' : gmap string (FunctionDefinition Builtin))
           (sp : SearchPath),
      Resolve funDefs' cell sp = (Returns (Ok fd), cell).
Proof.
  intros Hkey. exists (mkRef (FRFunctionDefinition fd)).
  unfold wrapFunction. rewrite Hkey. by repeat split.
Qed.

End Properties.

(** * The theorems at work on the sample registry *)

(** ** Where the code departs from the description *)

(** C2: the error for a selector is not of a kind of its own.  The name
    [lower[...]] normalises with a non-empty selector, [lower] alone
    resolves, and the error returned has the very format of the error that
    the normaliser returns for an invalid (here: empty) name. *)
Lemma selector_error_is_the_invalid_name_error :
  let n := [nm "lower"; sub] in
  (exists fn, normalizeFunctionName n = Ok fn /\ selector fn <> []) /\
  ResolveFunction sampleDefs [nm "lower"] [] = Ok (sampleDef "lower") /\
  ~ (exists e e0,
        ResolveFunction sampleDefs n [] = Err e /\
        normalizeFunctionName (@nil (NamePart unit)) = Err e0 /\
        errFormat e <> errFormat e0).
Proof.
  cbn zeta. split; [| split].
  - eexists. split; [vm_compute; reflexivity | discriminate].
  - vm_compute. reflexivity.
  - intros (e & e0 & He & He0 & Hdiff).
    vm_compute in He, He0. inversion He; inversion He0; subst.
    by apply Hdiff.
Qed.

(** C3: three plain identifiers are not a table-like name. *)
Lemma three_plain_parts_do_not_normalize :
  let n := [nm "a"; nm "b"; nm "c"] in
  n <> [] /\
  Forall (fun p => isArraySubscript p = false) n /\
  ~ (exists fn, normalizeFunctionName n = Ok fn /\ selector fn = []).
Proof.
  cbn zeta. split; [discriminate |]. split; [repeat constructor |].
  intros (fn & Hfn & _). vm_compute in Hfn. discriminate.
Qed.

(** C4: [wrapFunction] does read the registry: the same name gives a cell
    under one registry and a panic under another. *)
Lemma wrapFunction_depends_on_registry :
  wrapFunction (ArraySubscript := unit) sampleDefs "lower"
    = Returns (mkRef (FRFunctionDefinition (sampleDef "lower"))) /\
  wrapFunction (ArraySubscript := unit) (Builtin := unit) ∅ "lower"
    = Panics "function lower() not defined" /\
  ~ (forall (funDefs1 funDefs2 : gmap string (FunctionDefinition unit))
            (name : string),
        wrapFunction (ArraySubscript := unit) funDefs1 name
          = wrapFunction funDefs2 name).
Proof.
  split; [vm_compute; reflexivity |]. split; [vm_compute; reflexivity |].
  intros Hsame. specialize (Hsame sampleDefs ∅ "lower").
  vm_compute in Hsame. discriminate.
Qed.

(** ** Instances *)

Lemma Resolve_caches_first_success_witness :
  let cell := mkRef (FRUnresolvedName [nm "now"]) in
  let d := sampleDef "pg_catalog.now" in
  let cell' := mkRef (FRFunctionDefinition d) in
  Resolve sampleDefs cell ["pg_catalog"] = (Returns (Ok d), cell') /\
  Resolve sampleDefs cell' ["crdb_internal"] = (Returns (Ok d), cell') /\
  ResolveMany sampleDefs cell' [["crdb_internal"]; []; ["pg_catalog"]]
    = ([Returns (Ok d); Returns (Ok d); Returns (Ok d)], cell').
Proof.
  cbn zeta.
  assert (Hfirst :
    Resolve sampleDefs (mkRef (FRUnresolvedName [nm "now"])) ["pg_catalog"]
    = (Returns (Ok (sampleDef "pg_catalog.now")),
       mkRef (FRFunctionDefinition (sampleDef "pg_catalog.now"))))
    by (vm_compute; reflexivity).
  split; [exact Hfirst |].
  destruct (Resolve_caches_first_success sampleDefs _ _ _ _ Hfirst)
    as (_ & Hnext & Hrun).
  split; [apply Hnext | apply (Hrun [["crdb_internal"]; []; ["pg_catalog"]])].
Defined.

Lemma Resolve_failure_leaves_cell_witness :
  let cell := mkRef (FRUnresolvedName [nm "now"]) in
  let e := Errorf "unknown function: %s()" [nm "now"] in
  let d := sampleDef "pg_catalog.now" in
  ResolveFunction sampleDefs [nm "now"] [] = Err e /\
  Resolve sampleDefs cell [] = (Returns (Err e), cell) /\
  ResolveMany sampleDefs cell [[]; ["pg_catalog"]]
    = ([Returns (Err e); Returns (Ok d)], mkRef (FRFunctionDefinition d)).
Proof.
  cbn zeta.
  assert (Hfail : ResolveFunction sampleDefs [nm "now"] []
                  = Err (Errorf "unknown function: %s()" [nm "now"]))
    by (vm_compute; reflexivity).
  split; [exact Hfail |].
  destruct (Resolve_failure_leaves_cell sampleDefs _ _ _ Hfail)
    as (Hsame & Hlater).
  split; [exact Hsame |].
  apply Hlater. vm_compute. reflexivity.
Defined.

Lemma wrapFunction_panics_iff_unregistered_witness :
  wrapFunction (ArraySubscript := unit) sampleDefs "now"
    = Panics "function now() not defined" /\
  wrapFunction (ArraySubscript := unit) sampleDefs "count"
    = Returns (mkRef (FRFunctionDefinition (sampleDef "count"))).
Proof.
  split.
  - apply (wrapFunction_panics_iff_unregistered sampleDefs "now").
    vm_compute. reflexivity.
  - apply (wrapFunction_panics_iff_unregistered sampleDefs "count").
    vm_compute. reflexivity.
Defined.

Lemma wrapFunction_cell_is_resolved_witness :
  exists cell : ResolvableFunctionReference unit unit,
    wrapFunction sampleDefs "lower" = Returns cell /\
    FunctionReference_ cell = FRFunctionDefinition (sampleDef "lower") /\
    forall (funDefs' : gmap string (FunctionDefinition unit))
           (sp : SearchPath),
      Resolve funDefs' cell sp = (Returns (Ok (sampleDef "lower")), cell).
Proof.
  apply (wrapFunction_cell_is_resolved sampleDefs "lower").
  vm_compute. reflexivity.
Defined.

Lemma normalizeFunctionName_plain_parts_witness :
  (exists fn, normalizeFunctionName [nm "pg_catalog"; nm "now"] = Ok fn /\
              selector fn = []) /\
  normalizeFunctionName [nm "a"; nm "b"; nm "c"]
    = Err (Errorf "invalid function name: %s" [nm "a"; nm "b"; nm "c"]).
Proof.
  split.
  - apply (normalizeFunctionName_plain_parts [nm "pg_catalog"; nm "now"]);
      [discriminate | repeat constructor | simpl; lia].
  - apply (normalizeFunctionName_plain_parts [nm "a"; nm "b"; nm "c"]);
      [discriminate | repeat constructor | simpl; lia].
Defined.

Lemma ResolveFunction_rejects_selector_witness :
  ResolveFunction sampleDefs [nm "lower"; sub] ["pg_catalog"]
    = Err (Errorf "invalid function name: %s" [nm "lower"; sub]) /\
  Errorf "invalid function name: %s" [nm "lower"; sub]
    <> Errorf "unknown function: %s()" [nm "lower"; sub].
Proof.
  apply (ResolveFunction_rejects_selector sampleDefs [nm "lower"; sub]
           (mkFunctionName "" "lower" [sub]) ["pg_catalog"]);
    [vm_compute; reflexivity | discriminate].
Defined.

(** [resolve("lower", [])]. *)
Lemma ResolveFunction_fast_path_witness :
  ResolveFunction sampleDefs [nm "lower"] [] = Ok (sampleDef "lower").
Proof.
  apply (ResolveFunction_fast_path sampleDefs [nm "lower"]
           (mkFunctionName "" "lower" []) (sampleDef "lower") []);
    vm_compute; reflexivity.
Defined.

(** [resolve("PG_CATALOG.NOW", [])], and a qualified name outside ASCII:
    the capital E with acute accent is looked up under the small one. *)
Lemma ResolveFunction_lowercase_candidate_witness :
  ResolveFunction sampleDefs [nm "PG_CATALOG"; nm "NOW"] []
    = Ok (sampleDef "pg_catalog.now") /\
  ToLower "PG_CATALOG" = "pg_catalog" /\
  ToLower "NOW" = "now" /\
  ResolveFunction sampleDefsLatin1 [nm "É"; nm "X"] []
    = Ok (sampleDef "é.x").
Proof.
  destruct (ResolveFunction_lowercase_candidate sampleDefs
              [nm "PG_CATALOG"; nm "NOW"]
              (mkFunctionName "PG_CATALOG" "NOW" [])
              (sampleDef "pg_catalog.now") [])
    as (Hok & Hprefix & Hname);
    [vm_compute; reflexivity | reflexivity | right; discriminate
    | vm_compute; reflexivity |].
  split; [exact Hok |].
  split; [exact (Hprefix eq_refl) |].
  split; [exact (Hname eq_refl) |].
  apply (ResolveFunction_lowercase_candidate sampleDefsLatin1
           [nm "É"; nm "X"] (mkFunctionName "É" "X" [])
           (sampleDef "é.x") []);
    [vm_compute; reflexivity | reflexivity | right; discriminate
    | vm_compute; reflexivity].
Defined.

(** [resolve("NOW", ...)]: the name is looked up in lowercase; both
    [crdb_internal.now] and [pg_catalog.now] are registered and the earlier
    entry of the search path wins; the qualified [INFORMATION_SCHEMA.Now] is
    unknown although the search path would find [now]. *)
Lemma ResolveFunction_search_path_witness :
  ResolveFunction sampleDefs [nm "NOW"]
      ["information_schema"; "crdb_internal"; "pg_catalog"]
    = Ok (sampleDef "crdb_internal.now") /\
  ResolveFunction sampleDefs [nm "NOW"] ["information_schema"]
    = Err (Errorf "unknown function: %s()" [nm "NOW"]) /\
  ResolveFunction sampleDefs [nm "INFORMATION_SCHEMA"; nm "Now"] []
    = ResolveFunction sampleDefs [nm "INFORMATION_SCHEMA"; nm "Now"]
        ["pg_catalog"] /\
  ResolveFunction sampleDefs [nm "INFORMATION_SCHEMA"; nm "Now"]
      ["pg_catalog"]
    = Err (Errorf "unknown function: %s()"
             [nm "INFORMATION_SCHEMA"; nm "Now"]) /\
  ToLower "INFORMATION_SCHEMA" = "information_schema" /\
  ToLower "Now" = "now".
Proof.
  assert (Hmiss : forall a : string, a ∈ ["information_schema"] ->
            sampleDefs !! (a +:+ "." +:+ ToLower "NOW") = None).
  { intros a Ha. apply list_elem_of_In in Ha. destruct Ha as [<- | []].
    vm_compute. reflexivity. }
  destruct (ResolveFunction_search_path sampleDefs [nm "NOW"]
              (mkFunctionName "" "NOW" []) eq_refl eq_refl)
    as (Hunq & _ & _ & _).
  destruct (Hunq eq_refl eq_refl eq_refl) as [Hfirst Hnone].
  destruct (ResolveFunction_search_path sampleDefs
              [nm "INFORMATION_SCHEMA"; nm "Now"]
              (mkFunctionName "INFORMATION_SCHEMA" "Now" [])
              eq_refl eq_refl)
    as (_ & Hq & Hprefix & Hname).
  destruct (Hq ltac:(discriminate)) as [Hsame Hunknown].
  split; [| split; [| split; [| split; [| split]]]].
  - apply (Hfirst ["information_schema"] ["pg_catalog"] "crdb_internal"
             (sampleDef "crdb_internal.now") Hmiss).
    vm_compute. reflexivity.
  - apply (Hnone ["information_schema"] Hmiss).
  - apply Hsame.
  - apply Hunknown. vm_compute. reflexivity.
  - exact (Hprefix eq_refl).
  - exact (Hname eq_refl).
Defined.

(** * Further properties of the resolver and of the cell *)

Section MoreProperties.

Context {ArraySubscript Builtin : Type} {caseTables : UnicodeLower}.
Variable funDefs : gmap string (FunctionDefinition Builtin).

Implicit Types (n : UnresolvedName ArraySubscript).
Implicit Types (fn : functionName ArraySubscript).
Implicit Types (d fd : FunctionDefinition Builtin).
Implicit Types (sp searchPath : SearchPath).
Implicit Types (cell : ResolvableFunctionReference ArraySubscript Builtin).

(** ** The scan for the first array subscript *)

(** The loop either finds no subscript and leaves [i] as it was, or stops
    at the first one: what precedes it is plain and its position is
    returned. *)
Lemma firstArraySubscript_spec (ps : NameParts ArraySubscript) (j i : nat) :
  (Forall (fun p => isArraySubscript p = false) ps /\
   firstArraySubscript j ps i = i) \/
  (exists front a rest,
      ps = (front ++ NPArraySubscript a :: rest)%list /\
      Forall (fun p => isArraySubscript p = false) front /\
      firstArraySubscript j ps i = j + length front).
Proof.
  revert j. induction ps as [|p ps IH]; intros j.
  - left. by split.
  - destruct p as [s | a].
    + destruct (IH (S j)) as [[Hplain Hi] | (front & a & rest & -> & Hplain & Hi)].
      * left. split; [by constructor | exact Hi].
      * right. exists (NPName s :: front), a, rest.
        split; [reflexivity |]. split; [by constructor |].
        cbn. rewrite Hi. lia.
    + right. exists [], a, ps. cbn. repeat split; [constructor | lia].
Qed.

Lemma Exists_subscript_not_plain (ps : NameParts ArraySubscript) :
  Exists (fun p => isArraySubscript p = true) ps ->
  ~ Forall (fun p => isArraySubscript p = false) ps.
Proof.
  intros Hex Hall. apply Exists_exists in Hex as (p & Hin & Hp).
  rewrite Forall_forall in Hall. specialize (Hall p Hin). congruence.
Qed.

(** ** The normaliser *)

(** Inversion of a successful normalisation. *)
Lemma normalizeFunctionName_inv n fn :
  normalizeFunctionName n = Ok fn ->
  exists front,
    n = (front ++ selector fn)%list /\
    front <> [] /\
    Forall (fun p => isArraySubscript p = false) front /\
    normalizeTableNameAsValue front
      = Some (mkTableName (prefix fn) (function fn)) /\
    (selector fn = [] \/
     exists a rest, selector fn = NPArraySubscript a :: rest).
Proof.
  unfold normalizeFunctionName.
  destruct n as [|p ps]; [discriminate |].
  set (n := p :: ps). cbn [length Nat.eqb].
  destruct (firstArraySubscript_spec n 0 (length n))
    as [[Hplain Hi] | (front & a & rest & Hn & Hplain & Hi)];
    rewrite Hi.
  - cbn [n length Nat.eqb]. fold n.
    rewrite take_ge, drop_ge by reflexivity.
    destruct (normalizeTableNameAsValue n) as [[db t] |] eqn:Htn;
      [| discriminate].
    intros [= <-]. exists n. cbn. rewrite app_nil_r.
    repeat split; [done | exact Hplain | exact Htn | by left].
  - rewrite Hn. cbn [Nat.add].
    rewrite take_app_length, drop_app_length.
    destruct front as [|q front]; [discriminate |].
    cbn [length Nat.eqb].
    destruct (normalizeTableNameAsValue (q :: front)) as [[db t] |] eqn:Htn;
      [| discriminate].
    intros [= <-]. exists (q :: front). cbn.
    repeat split; [done | exact Hplain | exact Htn | right; eauto].
Qed.

(** X2. A name that normalises splits, in order, into a non-empty front
    without array subscript, which the table-name normaliser accepts and
    turns into the prefix and the function name, and the selector, which is
    empty or begins with an array subscript. *)
Theorem normalizeFunctionName_splits n fn :
  normalizeFunctionName n = Ok fn ->
  exists front,
    n = (front ++ selector fn)%list /\
    front <> [] /\
    Forall (fun p => isArraySubscript p = false) front /\
    normalizeTableNameAsValue front
      = Some (mkTableName (prefix fn) (function fn)) /\
    (selector fn = [] \/
     exists a rest, selector fn = NPArraySubscript a :: rest).
Proof. apply normalizeFunctionName_inv. Qed.

(** X3. Parts written after a plain name become its selector and change
    nothing else: if a front without array subscript normalises, the front
    followed by an array subscript and anything more normalises to the same
    prefix and function name, with all that was added as the selector. *)
Theorem normalizeFunctionName_with_selector n fn
  (a : ArraySubscript) (rest : NameParts ArraySubscript) :
  Forall (fun p => isArraySubscript p = false) n ->
  normalizeFunctionName n = Ok fn ->
  normalizeFunctionName (n ++ NPArraySubscript a :: rest)%list
    = Ok (mkFunctionName (prefix fn) (function fn)
            (NPArraySubscript a :: rest)).
Proof.
  intros Hplain. unfold normalizeFunctionName.
  rewrite (firstArraySubscript_plain _ _ _ Hplain).
  rewrite take_ge, drop_ge by reflexivity.
  destruct n as [|p ps]; [discriminate |].
  set (n := p :: ps) in *. cbn [length Nat.eqb].
  destruct (normalizeTableNameAsValue n) as [tn |] eqn:Htn; [| discriminate].
  intros [= <-].
  destruct (firstArraySubscript_spec (n ++ NPArraySubscript a :: rest)%list 0
              (length (n ++ NPArraySubscript a :: rest)%list))
    as [[Hbad _] | (front & a' & rest' & Hsplit & Hfront & Hi)].
  { exfalso. apply Forall_app in Hbad as [_ Hbad].
    apply Forall_cons in Hbad as [Hbad _]. discriminate. }
  assert (Hsame : front = n /\ a' = a /\ rest' = rest).
  { clear Hi Htn. subst n. revert front Hsplit Hfront.
    generalize (p :: ps) as l, Hplain.
    induction l as [|q l IH]; intros Hl front Hsplit Hfront.
    - destruct front as [|q' front]; cbn in Hsplit.
      + by inversion Hsplit.
      + inversion Hsplit; subst. apply Forall_cons in Hfront as [Hq _].
        discriminate.
    - apply Forall_cons in Hl as [Hq Hl].
      destruct front as [|q' front]; cbn in Hsplit.
      + inversion Hsplit; subst. discriminate.
      + inversion Hsplit; subst. apply Forall_cons in Hfront as [_ Hfront].
        destruct (IH Hl front H1 Hfront) as (-> & -> & ->). done. }
  destruct Hsame as (-> & -> & ->).
  assert (Hlen : (length (n ++ NPArraySubscript a :: rest)%list =? 0)%nat
                 = false).
  { subst n. reflexivity. }
  rewrite Hlen, Hi. cbn [Nat.add].
  assert (Hn0 : (length n =? 0)%nat = false) by (subst n; reflexivity).
  rewrite Hn0, take_app_length, drop_app_length, Htn. reflexivity.
Qed.

(** ** The resolver *)

Lemma normalizeFunctionName_error n (e : error ArraySubscript) :
  normalizeFunctionName n = Err e ->
  e = Errorf "invalid function name: %s" n.
Proof.
  unfold normalizeFunctionName.
  repeat match goal with
         | |- context [if ?b then _ else _] => destruct b
         | |- context [match ?o with Some _ => _ | None => _ end] =>
             destruct o
         end; congruence.
Qed.

(** [ResolveFunction] on a name that is normalised and has no selector. *)
Lemma ResolveFunction_normalized n fn sp :
  normalizeFunctionName n = Ok fn ->
  selector fn = [] ->
  ResolveFunction funDefs n sp =
    match funDefs !! function fn, String.eqb (prefix fn) "" with
    | Some d, true => Ok d
    | _, _ =>
        match funDefs !! (if String.eqb (prefix fn) ""
                          then ToLower (function fn)
                          else ToLower (prefix fn) +:+ "." +:+
                               ToLower (function fn)) with
        | Some def => Ok def
        | None =>
            match (if String.eqb (prefix fn) ""
                   then searchPathLoop funDefs (ToLower (function fn)) sp
                   else None) with
            | Some def => Ok def
            | None => Err (Errorf "unknown function: %s()" n)
            end
        end
    end.
Proof.
  intros Hn Hsel. unfold ResolveFunction. rewrite Hn, Hsel. cbn.
  rewrite eqb_empty_ToLower.
  by destruct (funDefs !! function fn), (String.eqb (prefix fn) "").
Qed.

Lemma ResolveFunction_with_selector n fn sp :
  normalizeFunctionName n = Ok fn ->
  selector fn <> [] ->
  ResolveFunction funDefs n sp = Err (Errorf "invalid function name: %s" n).
Proof.
  intros Hn Hsel. unfold ResolveFunction. rewrite Hn.
  by destruct (selector fn).
Qed.

Lemma searchPathLoop_hit (smallName : string) sp d :
  searchPathLoop funDefs smallName sp = Some d ->
  exists alt, alt ∈ sp /\ funDefs !! (alt +:+ "." +:+ smallName) = Some d.
Proof.
  induction sp as [|alt rest IH]; cbn; [discriminate |].
  destruct (funDefs !! (alt +:+ "." +:+ smallName)) as [d' |] eqn:Halt.
  - intros [= ->]. exists alt. split; [apply list_elem_of_here | exact Halt].
  - intros Hrest. destruct (IH Hrest) as (alt' & Hin & Hkey).
    exists alt'. split; [by apply list_elem_of_further | exact Hkey].
Qed.

Lemma searchPathLoop_app (smallName : string) (sp1 sp2 : SearchPath) :
  searchPathLoop funDefs smallName (sp1 ++ sp2) =
    match searchPathLoop funDefs smallName sp1 with
    | Some d => Some d
    | None => searchPathLoop funDefs smallName sp2
    end.
Proof.
  induction sp1 as [|alt rest IH]; cbn; [reflexivity |].
  by destruct (funDefs !! (alt +:+ "." +:+ smallName)).
Qed.

(** X1. A name with an array subscript anywhere never resolves: for every
    registry and search path the result is the invalid-name error on the
    name as given. *)
Theorem ResolveFunction_rejects_any_subscript n sp :
  Exists (fun p => isArraySubscript p = true) n ->
  ResolveFunction funDefs n sp = Err (Errorf "invalid function name: %s" n).
Proof.
  intros Hsub.
  destruct (normalizeFunctionName n) as [fn | e] eqn:Hn.
  - apply (ResolveFunction_with_selector _ fn _ Hn).
    destruct (normalizeFunctionName_inv _ _ Hn)
      as (front & Hsplit & _ & Hplain & _ & [Hnil | (a & rest & Hsel)]).
    + rewrite Hnil, app_nil_r in Hsplit. subst front.
      by destruct (Exists_subscript_not_plain _ Hsub).
    + by rewrite Hsel.
  - unfold ResolveFunction. rewrite Hn.
    by rewrite (normalizeFunctionName_error _ _ Hn).
Qed.

(** X4. A definition that [ResolveFunction] returns is always an entry of
    the registry, under one of the keys the name allows: for an unqualified
    name the text as written, its lowercase form, or a search-path entry, a
    dot and the lowercase form; for a qualified name only the lowercase
    prefix, a dot and the lowercase name. *)
Theorem ResolveFunction_sound n sp d :
  ResolveFunction funDefs n sp = Ok d ->
  exists fn,
    normalizeFunctionName n = Ok fn /\
    selector fn = [] /\
    ((prefix fn = "" /\
      (funDefs !! function fn = Some d \/
       funDefs !! ToLower (function fn) = Some d \/
       exists alt, alt ∈ sp /\
         funDefs !! (alt +:+ "." +:+ ToLower (function fn)) = Some d)) \/
     (prefix fn <> "" /\
      funDefs !! (ToLower (prefix fn) +:+ "." +:+ ToLower (function fn))
        = Some d)).
Proof.
  intros Hok.
  destruct (normalizeFunctionName n) as [fn | e] eqn:Hn;
    [| unfold ResolveFunction in Hok; rewrite Hn in Hok; discriminate].
  destruct (selector fn) as [|p ps] eqn:Hsel;
    [| rewrite (ResolveFunction_with_selector _ fn) in Hok;
       [discriminate | done | by rewrite Hsel]].
  exists fn. split; [reflexivity |]. split; [exact Hsel |].
  rewrite (ResolveFunction_normalized _ _ _ Hn Hsel) in Hok.
  destruct (String.eqb (prefix fn) "") eqn:Hpre.
  - apply String.eqb_eq in Hpre. left. split; [exact Hpre |].
    destruct (funDefs !! function fn) as [d0 |]; [left; congruence |].
    destruct (funDefs !! ToLower (function fn)) as [d1 |];
      [right; left; congruence |].
    destruct (searchPathLoop funDefs (ToLower (function fn)) sp)
      as [d2 |] eqn:Hloop; [| discriminate].
    right; right. injection Hok as <-. by apply searchPathLoop_hit.
  - apply String.eqb_neq in Hpre. right. split; [exact Hpre |].
    destruct (funDefs !! (ToLower (prefix fn) +:+ "." +:+
                          ToLower (function fn))) as [d1 |];
      [| by destruct (funDefs !! function fn)].
    destruct (funDefs !! function fn); congruence.
Qed.

(** X5. An error of [ResolveFunction] always carries the name as given,
    and has one of two texts: the invalid-name text, or the unknown-function
    text, the latter only for a name that normalises with an empty
    selector. *)
Theorem ResolveFunction_errors n sp (e : error ArraySubscript) :
  ResolveFunction funDefs n sp = Err e ->
  errArg e = n /\
  (errFormat e = "invalid function name: %s" \/
   (errFormat e = "unknown function: %s()" /\
    exists fn, normalizeFunctionName n = Ok fn /\ selector fn = [])).
Proof.
  intros Herr.
  destruct (normalizeFunctionName n) as [fn | e0] eqn:Hn.
  - destruct (selector fn) as [|p ps] eqn:Hsel.
    + rewrite (ResolveFunction_normalized _ _ _ Hn Hsel) in Herr.
      assert (e = Errorf "unknown function: %s()" n) as ->.
      { repeat match type of Herr with
               | context [match ?o with Some _ => _ | None => _ end] =>
                   destruct o
               | context [if ?b then _ else _] => destruct b
               end; congruence. }
      split; [reflexivity |]. right. split; [reflexivity | eauto].
    + rewrite (ResolveFunction_with_selector _ fn) in Herr;
        [| done | by rewrite Hsel].
      injection Herr as <-. split; [reflexivity | by left].
  - unfold ResolveFunction in Herr. rewrite Hn in Herr.
    injection Herr as <-.
    rewrite (normalizeFunctionName_error _ _ Hn).
    split; [reflexivity | by left].
Qed.

Ltac destruct_lookups_in H :=
  repeat match type of H with
         | context [match ?o with Some _ => _ | None => _ end] => destruct o
         | context [if ?b then _ else _] => destruct b
         end.

(** X6. The invalid-name error depends on the name alone: when
    [ResolveFunction] fails with it under one registry and search path, it
    fails with the same error under every registry and search path. *)
Theorem ResolveFunction_invalid_name_everywhere n sp
  (e : error ArraySubscript) :
  ResolveFunction funDefs n sp = Err e ->
  errFormat e = "invalid function name: %s" ->
  forall (funDefs' : gmap string (FunctionDefinition Builtin))
         (sp' : SearchPath),
    ResolveFunction funDefs' n sp' = Err e.
Proof.
  intros Herr Hfmt funDefs' sp'.
  destruct (normalizeFunctionName n) as [fn | e0] eqn:Hn.
  - destruct (selector fn) as [|p ps] eqn:Hsel.
    + rewrite (ResolveFunction_normalized _ _ _ Hn Hsel) in Herr.
      exfalso. destruct_lookups_in Herr; try discriminate;
        injection Herr as <-; discriminate.
    + unfold ResolveFunction in *. rewrite Hn in *. by rewrite Hsel in *.
  - unfold ResolveFunction in *. by rewrite Hn in *.
Qed.

(** X7. Resolving under the search path [sp1 ++ sp2] is resolving under
    [sp1] and, only if that fails, under [sp2]: entries added at the end
    never change a name that already resolves. *)
Theorem ResolveFunction_search_path_app n (sp1 sp2 : SearchPath) :
  ResolveFunction funDefs n (sp1 ++ sp2) =
    match ResolveFunction funDefs n sp1 with
    | Ok d => Ok d
    | Err _ => ResolveFunction funDefs n sp2
    end.
Proof.
  destruct (normalizeFunctionName n) as [fn | e0] eqn:Hn.
  - destruct (selector fn) as [|p ps] eqn:Hsel.
    + rewrite !(ResolveFunction_normalized _ fn _ Hn Hsel).
      rewrite searchPathLoop_app.
      destruct (funDefs !! function fn), (String.eqb (prefix fn) "");
        try reflexivity;
        match goal with
        | |- context [funDefs !! ?k] => destruct (funDefs !! k)
        end; try reflexivity;
        by destruct (searchPathLoop funDefs (ToLower (function fn)) sp1).
    + rewrite !(ResolveFunction_with_selector _ fn) by (done || by rewrite Hsel).
      reflexivity.
  - unfold ResolveFunction. by rewrite Hn.
Qed.

(** With a registry keyed in lowercase the fast path is only a shortcut:
    the result is the one of the lowercase lookup. *)
Lemma ResolveFunction_lowercase_registry n fn sp :
  (forall (k : string) d, funDefs !! k = Some d -> ToLower k = k) ->
  normalizeFunctionName n = Ok fn ->
  selector fn = [] ->
  ResolveFunction funDefs n sp =
    match funDefs !! (if String.eqb (ToLower (prefix fn)) ""
                      then ToLower (function fn)
                      else ToLower (prefix fn) +:+ "." +:+
                           ToLower (function fn)) with
    | Some def => Ok def
    | None =>
        match (if String.eqb (ToLower (prefix fn)) ""
               then searchPathLoop funDefs (ToLower (function fn)) sp
               else None) with
        | Some def => Ok def
        | None => Err (Errorf "unknown function: %s()" n)
        end
    end.
Proof.
  intros Hkeys Hn Hsel. rewrite (ResolveFunction_normalized _ _ _ Hn Hsel).
  rewrite eqb_empty_ToLower.
  destruct (funDefs !! function fn) as [d0 |] eqn:Hkey; [| reflexivity].
  destruct (String.eqb (prefix fn) ""); [| reflexivity].
  by rewrite (Hkeys _ _ Hkey), Hkey.
Qed.

(** X8. When every key of the registry is in lowercase, resolution does
    not depend on the case in which a name is written: two names without
    selector whose prefixes and function names agree up to case resolve to
    the same definition, or both fail. *)
Theorem ResolveFunction_case_insensitive n n' fn fn' sp :
  (forall (k : string) d, funDefs !! k = Some d -> ToLower k = k) ->
  normalizeFunctionName n = Ok fn ->
  normalizeFunctionName n' = Ok fn' ->
  selector fn = [] ->
  selector fn' = [] ->
  ToLower (prefix fn) = ToLower (prefix fn') ->
  ToLower (function fn) = ToLower (function fn') ->
  forall d,
    ResolveFunction funDefs n sp = Ok d <->
    ResolveFunction funDefs n' sp = Ok d.
Proof.
  intros Hkeys Hn Hn' Hsel Hsel' Hprefix Hfunction d.
  rewrite (ResolveFunction_lowercase_registry _ _ _ Hkeys Hn Hsel).
  rewrite (ResolveFunction_lowercase_registry _ _ _ Hkeys Hn' Hsel').
  rewrite Hprefix, Hfunction.
  repeat match goal with
         | |- context [match ?o with Some _ => _ | None => _ end] =>
             destruct o
         | |- context [if ?b then _ else _] => destruct b
         end; split; congruence.
Qed.

(** ** The reference cell *)

Lemma ResolveMany_resolved d (Ps : list SearchPath) :
  ResolveMany (ArraySubscript := ArraySubscript) funDefs
      (mkRef (FRFunctionDefinition d)) Ps
    = (map (fun _ => Returns (Ok d)) Ps, mkRef (FRFunctionDefinition d)).
Proof.
  induction Ps as [|P Ps IH]; [reflexivity |].
  cbn [ResolveMany map]. unfold Resolve at 1. cbn [FunctionReference_].
  by rewrite IH.
Qed.

Lemma ResolveMany_all_fail n (Ps : list SearchPath) :
  Forall (fun sp => exists e, ResolveFunction funDefs n sp = Err e) Ps ->
  ResolveMany funDefs (mkRef (FRUnresolvedName n)) Ps
    = (map (fun sp => Returns (ResolveFunction funDefs n sp)) Ps,
       mkRef (FRUnresolvedName n)).
Proof.
  induction 1 as [|P Ps [e He] _ IH]; [reflexivity |].
  cbn [ResolveMany map]. unfold Resolve at 1. cbn [FunctionReference_].
  by rewrite He, IH.
Qed.

(** X9. In a run of [Resolve] calls on an unresolved cell, the calls
    before the first success each return the resolver's error for their own
    search path; the first success and every call after it return the
    definition found by the first success, whatever their search paths; and
    the cell ends up holding that definition.  If no call succeeds the cell
    still holds the name. *)
Theorem ResolveMany_first_success_wins n (before after : list SearchPath)
  (sp0 : SearchPath) d :
  Forall (fun sp => exists e, ResolveFunction funDefs n sp = Err e) before ->
  ResolveMany funDefs (mkRef (FRUnresolvedName n)) before
    = (map (fun sp => Returns (ResolveFunction funDefs n sp)) before,
       mkRef (FRUnresolvedName n)) /\
  (ResolveFunction funDefs n sp0 = Ok d ->
   ResolveMany funDefs (mkRef (FRUnresolvedName n)) (before ++ sp0 :: after)
     = ((map (fun sp => Returns (ResolveFunction funDefs n sp)) before ++
         Returns (Ok d) :: map (fun _ => Returns (Ok d)) after)%list,
        mkRef (FRFunctionDefinition d))).
Proof.
  intros Hfail. split; [by apply ResolveMany_all_fail |].
  intros Hok.
  induction Hfail as [|P Ps [e He] _ IH].
  - cbn [app map ResolveMany]. unfold Resolve at 1.
    cbn [FunctionReference_]. by rewrite Hok, ResolveMany_resolved.
  - cbn [app map ResolveMany]. unfold Resolve at 1.
    cbn [FunctionReference_]. by rewrite He, IH.
Qed.

(** X10. [Resolve] panics on the nil cell only, and never makes a cell
    nil: on a cell that holds a name or a definition, every call of a run
    returns, there is one result per call, and the cell at the end again
    holds a name or a definition. *)
Theorem ResolveMany_never_panics cell (Ps : list SearchPath) :
  FunctionReference_ cell <> FRNil ->
  Forall (fun r => exists v, r = Returns v) (ResolveMany funDefs cell Ps).1 /\
  length (ResolveMany funDefs cell Ps).1 = length Ps /\
  FunctionReference_ (ResolveMany funDefs cell Ps).2 <> FRNil.
Proof.
  revert cell. induction Ps as [|P Ps IH]; intros cell Hcell.
  - cbn. by repeat split.
  - cbn [ResolveMany].
    assert (Hstep : exists v cell1,
      Resolve funDefs cell P = (Returns v, cell1) /\
      FunctionReference_ cell1 <> FRNil).
    { unfold Resolve. destruct cell as [[fd | n |]]; cbn in *.
      - eauto.
      - destruct (ResolveFunction funDefs n P); eauto.
      - done. }
    destruct Hstep as (v & cell1 & -> & Hcell1).
    destruct (IH cell1 Hcell1) as (Hret & Hlen & Hnil).
    destruct (ResolveMany funDefs cell1 Ps) as [rs cell2]. cbn in *.
    split; [constructor; eauto |]. split; [by rewrite Hlen | exact Hnil].
Qed.

(** X11. The parser's helper and the resolver agree: for an unqualified
    name without selector whose text [wrapFunction] accepts, a [Resolve]
    call on the unresolved cell, under any search path, leaves exactly the
    cell that [wrapFunction] builds and returns the definition it holds. *)
Theorem Resolve_agrees_with_wrapFunction n fn cell sp :
  normalizeFunctionName n = Ok fn ->
  selector fn = [] ->
  prefix fn = "" ->
  wrapFunction funDefs (function fn) = Returns cell ->
  exists d,
    FunctionReference_ cell = FRFunctionDefinition d /\
    Resolve funDefs (mkRef (FRUnresolvedName n)) sp = (Returns (Ok d), cell).
Proof.
  intros Hn Hsel Hpre Hwrap. unfold wrapFunction in Hwrap.
  destruct (funDefs !! function fn) as [d |] eqn:Hkey; [| discriminate].
  injection Hwrap as <-. exists d. split; [reflexivity |].
  unfold Resolve. cbn [FunctionReference_].
  rewrite (ResolveFunction_normalized _ _ _ Hn Hsel), Hkey, Hpre.
  reflexivity.
Qed.

(** ** Formatting *)

Variable FmtFlags : Type.
Variable UnresolvedName_Format :
  UnresolvedName ArraySubscript -> string -> FmtFlags -> string.

(** X12. A [Resolve] call changes how the cell is printed only when it
    succeeds: the cell then prints as what was in the buffer followed by the
    [Name] of the definition, under every flag; after a failed call it
    prints as before. *)
Theorem Format_after_Resolve cell cell' sp
  (r : Outcome (Result ArraySubscript (FunctionDefinition Builtin))) :
  Resolve funDefs cell sp = (r, cell') ->
  forall (buf : string) (f : FmtFlags),
    match r with
    | Returns (Ok d) =>
        Format UnresolvedName_Format cell' buf f = Returns (buf +:+ FDName d)
    | _ =>
        Format UnresolvedName_Format cell' buf f
          = Format UnresolvedName_Format cell buf f
    end.
Proof.
  unfold Resolve. destruct cell as [[fd | n |]]; cbn [FunctionReference_].
  - by intros [= <- <-].
  - destruct (ResolveFunction funDefs n sp); by intros [= <- <-].
  - by intros [= <- <-].
Qed.

End MoreProperties.

(** ** Instances on the sample registry *)

Lemma sampleDefs_lowercase (k : string) (d : FunctionDefinition unit) :
  sampleDefs !! k = Some d -> ToLower k = k.
Proof.
  unfold sampleDefs. intros Hk.
  repeat (apply lookup_insert_Some in Hk as [[<- _] | [_ Hk]];
          [reflexivity |]).
  by rewrite lookup_empty in Hk.
Defined.

Lemma ResolveFunction_rejects_any_subscript_witness :
  ResolveFunction sampleDefs [nm "pg_catalog"; nm "now"; sub; nm "x"]
      ["pg_catalog"]
    = Err (Errorf "invalid function name: %s"
             [nm "pg_catalog"; nm "now"; sub; nm "x"]).
Proof.
  apply (ResolveFunction_rejects_any_subscript sampleDefs).
  do 2 apply Exists_cons_tl. apply Exists_cons_hd. reflexivity.
Defined.

Lemma normalizeFunctionName_splits_witness :
  exists front : NameParts unit,
    [nm "pg_catalog"; nm "now"; sub; nm "x"] = (front ++ [sub; nm "x"])%list /\
    front <> [] /\
    Forall (fun p => isArraySubscript p = false) front /\
    normalizeTableNameAsValue front = Some (mkTableName "pg_catalog" "now") /\
    ([sub; nm "x"] = [] \/
     exists a rest, [sub; nm "x"] = NPArraySubscript a :: rest).
Proof.
  apply (normalizeFunctionName_splits
           [nm "pg_catalog"; nm "now"; sub; nm "x"]
           (mkFunctionName "pg_catalog" "now" [sub; nm "x"])).
  vm_compute. reflexivity.
Defined.

Lemma normalizeFunctionName_with_selector_witness :
  normalizeFunctionName [nm "lower"; sub; nm "x"]
    = Ok (mkFunctionName "" "lower" [sub; nm "x"]).
Proof.
  apply (normalizeFunctionName_with_selector [nm "lower"]
           (mkFunctionName "" "lower" []) tt [nm "x"]);
    [repeat constructor | vm_compute; reflexivity].
Defined.

Lemma ResolveFunction_sound_witness :
  exists fn : functionName unit,
    normalizeFunctionName [nm "NOW"] = Ok fn /\
    selector fn = [] /\
    ((prefix fn = "" /\
      (sampleDefs !! function fn = Some (sampleDef "pg_catalog.now") \/
       sampleDefs !! ToLower (function fn)
         = Some (sampleDef "pg_catalog.now") \/
       exists alt, alt ∈ ["pg_catalog"] /\
         sampleDefs !! (alt +:+ "." +:+ ToLower (function fn))
           = Some (sampleDef "pg_catalog.now"))) \/
     (prefix fn <> "" /\
      sampleDefs !! (ToLower (prefix fn) +:+ "." +:+ ToLower (function fn))
        = Some (sampleDef "pg_catalog.now"))).
Proof.
  apply (ResolveFunction_sound sampleDefs [nm "NOW"] ["pg_catalog"]).
  vm_compute. reflexivity.
Defined.

Lemma ResolveFunction_errors_witness :
  let e := Errorf "unknown function: %s()" [nm "bogus_fn"] in
  errArg e = [nm "bogus_fn"] /\
  (errFormat e = "invalid function name: %s" \/
   (errFormat e = "unknown function: %s()" /\
    exists fn, normalizeFunctionName [nm "bogus_fn"] = Ok fn /\
               selector fn = [])).
Proof.
  apply (ResolveFunction_errors sampleDefs [nm "bogus_fn"] ["pg_catalog"]).
  vm_compute. reflexivity.
Defined.

Lemma ResolveFunction_invalid_name_everywhere_witness :
  ResolveFunction (Builtin := unit) ∅ [nm "a"; nm "b"; nm "c"] ["pg_catalog"]
    = Err (Errorf "invalid function name: %s" [nm "a"; nm "b"; nm "c"]).
Proof.
  apply (ResolveFunction_invalid_name_everywhere sampleDefs
           [nm "a"; nm "b"; nm "c"] []);
    vm_compute; reflexivity.
Defined.

Lemma sampleDefsLatin1_lowercase (k : string)
  (d : FunctionDefinition unit) :
  sampleDefsLatin1 !! k = Some d -> ToLower k = k.
Proof.
  unfold sampleDefsLatin1. intros Hk.
  apply lookup_insert_Some in Hk as [[<- _] | [_ Hk]]; [reflexivity |].
  by rewrite lookup_empty in Hk.
Defined.

(** [pg_catalog.NOW] resolves as [PG_CATALOG.Now] does, and, outside ASCII,
    the name written with the capital E with acute accent resolves as the
    one written with the small letter. *)
Lemma ResolveFunction_case_insensitive_witness :
  ResolveFunction sampleDefs [nm "pg_catalog"; nm "NOW"] []
    = Ok (sampleDef "pg_catalog.now") /\
  ResolveFunction sampleDefsLatin1 [nm "É"; nm "X"] ["pg_catalog"]
    = Ok (sampleDef "é.x").
Proof.
  split.
  - apply (ResolveFunction_case_insensitive sampleDefs
             [nm "PG_CATALOG"; nm "Now"] [nm "pg_catalog"; nm "NOW"]
             (mkFunctionName "PG_CATALOG" "Now" [])
             (mkFunctionName "pg_catalog" "NOW" []) []);
      [exact sampleDefs_lowercase | vm_compute; reflexivity..].
  - apply (ResolveFunction_case_insensitive sampleDefsLatin1
             [nm "é"; nm "x"] [nm "É"; nm "X"]
             (mkFunctionName "é" "x" [])
             (mkFunctionName "É" "X" []) ["pg_catalog"]);
      [exact sampleDefsLatin1_lowercase | vm_compute; reflexivity..].
Defined.

Lemma ResolveMany_first_success_wins_witness :
  let cell := mkRef (FRUnresolvedName [nm "now"]) in
  let e := Errorf "unknown function: %s()" [nm "now"] in
  let d := sampleDef "crdb_internal.now" in
  ResolveMany sampleDefs cell [[]; ["information_schema"]]
    = ([Returns (Err e); Returns (Err e)], cell) /\
  ResolveMany sampleDefs cell
      [[]; ["information_schema"]; ["crdb_internal"; "pg_catalog"];
       ["pg_catalog"]; []]
    = ([Returns (Err e); Returns (Err e); Returns (Ok d); Returns (Ok d);
        Returns (Ok d)],
       mkRef (FRFunctionDefinition d)).
Proof.
  cbn zeta.
  destruct (ResolveMany_first_success_wins sampleDefs [nm "now"]
              [[]; ["information_schema"]] [["pg_catalog"]; []]
              ["crdb_internal"; "pg_catalog"]
              (sampleDef "crdb_internal.now"))
    as [Hfail Hwin].
  { constructor; [eexists; vm_compute; reflexivity |].
    constructor; [eexists; vm_compute; reflexivity | constructor]. }
  split; [exact Hfail |]. apply Hwin. vm_compute. reflexivity.
Defined.

Lemma ResolveMany_never_panics_witness :
  let run := ResolveMany sampleDefs (mkRef (FRUnresolvedName [nm "now"]))
               [[]; ["pg_catalog"]] in
  Forall (fun r => exists v, r = Returns v) run.1 /\
  length run.1 = 2 /\
  FunctionReference_ run.2 <> FRNil.
Proof.
  apply (ResolveMany_never_panics sampleDefs
           (mkRef (FRUnresolvedName [nm "now"])) [[]; ["pg_catalog"]]).
  discriminate.
Defined.

Lemma Resolve_agrees_with_wrapFunction_witness :
  exists d,
    FunctionReference_
      (mkRef (ArraySubscript := unit)
         (FRFunctionDefinition (sampleDef "lower")))
      = FRFunctionDefinition d /\
    Resolve sampleDefs (mkRef (FRUnresolvedName [nm "lower"])) ["pg_catalog"]
      = (Returns (Ok d), mkRef (FRFunctionDefinition (sampleDef "lower"))).
Proof.
  apply (Resolve_agrees_with_wrapFunction sampleDefs [nm "lower"]
           (mkFunctionName "" "lower" []));
    vm_compute; reflexivity.
Defined.

Lemma Format_after_Resolve_witness :
  Format (fun (_ : UnresolvedName unit) (b : string) (_ : unit) => b)
    (mkRef (FRFunctionDefinition (sampleDef "pg_catalog.now"))) "SELECT " tt
  = Returns "SELECT pg_catalog.now".
Proof.
  apply (Format_after_Resolve sampleDefs unit
           (fun (_ : UnresolvedName unit) (b : string) (_ : unit) => b)
           (mkRef (FRUnresolvedName [nm "NOW"]))
           (mkRef (FRFunctionDefinition (sampleDef "pg_catalog.now")))
           ["pg_catalog"]
           (Returns (Ok (sampleDef "pg_catalog.now")))).
  vm_compute. reflexivity.
Defined.

(** A key that is not in lowercase is out of reach of a qualified name:
    with the only entry under the capital E with acute accent, the name
    written in just that way is looked up under the small letter and is
    unknown. *)
Example ResolveFunction_uppercase_key_unreachable :
  ResolveFunction (<["É.x" := sampleDef "É.x"]> ∅) [nm "É"; nm "x"] []
    = Err (Errorf "unknown function: %s()" [nm "É"; nm "x"]).
Proof. vm_compute. reflexivity. Qed.
